(** * hw_ui_pixelcontroller: the jumper-driven selector, embedded in Rocq

    A shallow embedding of [hw_ui_pixelcontroller.ino]: the global selector
    state, the function selector, the brightness bit packing, the pattern
    renderers and one iteration of [loop], followed by the properties of the
    selection state machine.

    Conventions.
    - C integers are [Z]; every conversion to [uint8_t] / [int8_t] is written
      out with [uint8] / [int8].  The [int] intermediates of the sketch stay
      within [-2 .. 256], far inside a 16-bit [int], so they carry no wrap.
    - The pin levels are an input of each frame: a function from pin number
      to level ([true] = HIGH, [false] = LOW, i.e. grounded).
    - The pixel array [leds] is a list updated in place with stdpp's insert.
    - FastLED's [EVERY_N_MILLISECONDS] / [EVERY_N_SECONDS] are polled timers
      of the library; whether each is due in a frame is an input of that
      frame. *)

From Stdlib Require Import ZArith Lia.
From stdpp Require Import base numbers list.

Local Open Scope Z_scope.

(** ** Machine integers *)

Definition uint8 (z : Z) : Z := z mod 256.
Definition int8 (z : Z) : Z := (z + 128) mod 256 - 128.

(** ** Configuration ([#define]s of the sketch) *)

Definition BASE_FSEL_PIN : Z := 2.
Definition BSEL_PIN1 : Z := 10.
Definition BSEL_PIN2 : Z := 11.
Definition NUM_LEDS : nat := 50.
Definition FRAMES_PER_SECOND : Z := 120.

(** Arduino's logic levels. *)
Definition HIGH : Z := 1.
Definition LOW : Z := 0.

(** ** Pixels and the global state *)

Record CRGB := mkCRGB { red_ch : Z; green_ch : Z; blue_ch : Z }.
Record CHSV := mkCHSV { hue : Z; sat : Z; val : Z }.

Record State := mkState {
  gCurrentPatternNumber : Z;   (* uint8_t *)
  gCycle : Z;                  (* uint8_t *)
  gHue : Z;                    (* uint8_t *)
  leds : list CRGB             (* CRGB leds[NUM_LEDS] *)
}.

Definition set_pattern (n : Z) (st : State) : State :=
  mkState n (gCycle st) (gHue st) (leds st).
Definition set_cycle (c : Z) (st : State) : State :=
  mkState (gCurrentPatternNumber st) c (gHue st) (leds st).
Definition set_hue (h : Z) (st : State) : State :=
  mkState (gCurrentPatternNumber st) (gCycle st) h (leds st).

(** [leds[i] = c].  The sketch only writes positions below [NUM_LEDS]; a
    write past the end of the array is undefined in C and does nothing here,
    and every property of the renderers is stated for a buffer of
    [NUM_LEDS] elements. *)
Definition set_led (i : nat) (c : CRGB) (st : State) : State :=
  mkState (gCurrentPatternNumber st) (gCycle st) (gHue st) (<[i:=c]> (leds st)).

(** The selector part of the state: what the renderers do not own. *)
Definition selector (st : State) : Z * Z * Z :=
  (gCurrentPatternNumber st, gCycle st, gHue st).

(** The static initialisers of lines 49 and 59-61: the three selector
    variables start at 0 and the pixel array is zero-initialised. *)
Definition black : CRGB := mkCRGB 0 0 0.
Definition init : State := mkState 0 0 0 (replicate NUM_LEDS black).

(** ** The pattern registry

    [gPatterns] is an array of function pointers; a pointer is modelled by
    the designator of the function it points to, and [ARRAY_SIZE] is the
    number of initialisers. *)

Module Ptr.
Inductive t := red | multi | blue | green | white | rainbow.
End Ptr.

Definition gPatterns : list Ptr.t :=
  [Ptr.red; Ptr.multi; Ptr.blue; Ptr.green; Ptr.white; Ptr.rainbow].

Definition ARRAY_SIZE {A} (a : list A) : Z := Z.of_nat (length a).

(** ** Pins *)

Definition Pins := Z -> bool.

Definition digitalRead (pins : Pins) (pin : Z) : Z :=
  if pins pin then HIGH else LOW.

Definition grounded (pins : Pins) (pin : Z) : Prop := pins pin = false.

(** ** functionSelect (lines 63-71)

    [fsel_scan pins i n] is the [for] loop from counter value [i] with [n]
    iterations left: the first pin that reads low returns its offset,
    converted to the [int8_t] result type; falling out of the loop
    returns [-1]. *)

Fixpoint fsel_scan (pins : Pins) (i : Z) (n : nat) : Z :=
  match n with
  | O => int8 (-1)
  | S n' =>
      if digitalRead pins (BASE_FSEL_PIN + i) =? 0
      then int8 i
      else fsel_scan pins (i + 1) n'
  end.

Definition functionSelect (pins : Pins) : Z :=
  fsel_scan pins 0 (Z.to_nat (ARRAY_SIZE gPatterns)).

(** ** nextPattern (lines 130-136) *)

Definition nextPattern (st : State) : State :=
  if gCycle st =? 0 then st
  else set_pattern
         (uint8 ((gCurrentPatternNumber st + 1) mod ARRAY_SIZE gPatterns)) st.

(** ** The selection step of [loop] (lines 99-109) *)

Definition select (pins : Pins) (st : State) : State :=
  let function := functionSelect pins in
  if function =? -1 then
    if gCycle st =? 0
    then nextPattern (set_pattern 0 (set_cycle 1 st))
    else st
  else set_pattern (uint8 function) (set_cycle 0 st).

(** ** The brightness expression (line 112) *)

Definition brightness_of (pins : Pins) : Z :=
  uint8 (Z.lor
           (Z.lor
              (Z.shiftl (Z.land (Z.lnot (digitalRead pins BSEL_PIN2)) 1) 7)
              (Z.shiftl (Z.land (Z.lnot (digitalRead pins BSEL_PIN1)) 1) 6))
           63).

(** ** The pattern renderers (lines 138-193)

    [for_from i n body] runs [body] at the counter values [i], [i+1], ...,
    [i+n-1] in that order: the loop [for (int i = 0; i < NUM_LEDS; i++)] is
    [for_from 0 NUM_LEDS]. *)

Fixpoint for_from {T : Type} (i n : nat) (body : nat -> T -> T) (st : T) : T :=
  match n with
  | O => st
  | S n' => for_from (S i) n' body (body i st)
  end.

Definition red (st : State) : State :=
  for_from 0 NUM_LEDS (fun i => set_led i (mkCRGB 0 255 0)) st.

Definition green (st : State) : State :=
  for_from 0 NUM_LEDS (fun i => set_led i (mkCRGB 255 0 0)) st.

Definition blue (st : State) : State :=
  for_from 0 NUM_LEDS (fun i => set_led i (mkCRGB 0 0 255)) st.

Definition white (st : State) : State :=
  for_from 0 NUM_LEDS (fun i => set_led i (mkCRGB 255 255 255)) st.

(** The [switch] of [multi] has five cases and no [default]: a value
    matching no case would leave the pixel as it was. *)
Definition multi_body (i : nat) (st : State) : State :=
  match (i mod 5)%nat with
  | 0%nat => set_led i (mkCRGB 80 255 0) st
  | 1%nat => set_led i (mkCRGB 0 0 255) st
  | 2%nat => set_led i (mkCRGB 255 0 0) st
  | 3%nat => set_led i (mkCRGB 0 100 255) st
  | 4%nat => set_led i (mkCRGB 0 255 0) st
  | _ => st
  end.

Definition multi (st : State) : State := for_from 0 NUM_LEDS multi_body st.

Section Rainbow.

(** FastLED's colour conversion, applied when a [CHSV] is assigned to a
    [CRGB]; library code, kept abstract. *)
Variable hsv2rgb_rainbow : CHSV -> CRGB.

(** [fill_rainbow] is FastLED library code, not part of the sketch.  It is
    modelled after the library's loop: starting from
    [CHSV(initialhue, 240, 255)], pixel [i] receives the converted colour
    and the hue then advances by [deltahue] with 8-bit wrap-around, for
    [i = 0 .. numToFill - 1]. *)
Fixpoint fill_rainbow_from (i n : nat) (hsv : CHSV) (deltahue : Z)
    (st : State) : State :=
  match n with
  | O => st
  | S n' =>
      fill_rainbow_from (S i) n'
        (mkCHSV (uint8 (hue hsv + deltahue)) (sat hsv) (val hsv)) deltahue
        (set_led i (hsv2rgb_rainbow hsv) st)
  end.

Definition fill_rainbow (numToFill : nat) (initialhue deltahue : Z)
    (st : State) : State :=
  fill_rainbow_from 0 numToFill (mkCHSV initialhue 240 255) deltahue st.

Definition rainbow (st : State) : State :=
  fill_rainbow NUM_LEDS (gHue st) 7 st.

(** Calling through a function pointer. *)
Definition call (f : Ptr.t) : State -> State :=
  match f with
  | Ptr.red => red
  | Ptr.multi => multi
  | Ptr.blue => blue
  | Ptr.green => green
  | Ptr.white => white
  | Ptr.rainbow => rainbow
  end.

(** ** setup (lines 73-91) and one iteration of loop (lines 93-126) *)

(** [setup] waits, registers the strip and configures the pins: it writes
    none of the globals. *)
Definition setup (st : State) : State := st.

(** The bodies of the two periodic blocks of lines 124-125. *)
Definition hue_tick (st : State) : State := set_hue (uint8 (gHue st + 1)) st.
Definition advance_tick (st : State) : State := nextPattern st.

(** What one frame reads: the pin levels and, for each polled timer,
    whether its period has elapsed. *)
Record Frame := mkFrame {
  pins_of : Pins;
  hue_due : bool;       (* EVERY_N_MILLISECONDS(20) fires *)
  advance_due : bool    (* EVERY_N_SECONDS(60) fires *)
}.

(** What one frame hands to the strip driver. *)
Record Shown := mkShown { shown_brightness : Z; shown_leds : list CRGB }.

(** Indexing [gPatterns] out of bounds is undefined behaviour: [None]. *)
Definition loop (fr : Frame) (st : State) : option (State * Shown) :=
  let st1 := select (pins_of fr) st in
  let brightness := brightness_of (pins_of fr) in
  match gPatterns !! Z.to_nat (gCurrentPatternNumber st1) with
  | None => None
  | Some f =>
      let st2 := call f st1 in
      let out := mkShown brightness (leds st2) in
      let st3 := if hue_due fr then hue_tick st2 else st2 in
      let st4 := if advance_due fr then advance_tick st3 else st3 in
      Some (st4, out)
  end.

(** The pattern whose renderer a frame invokes. *)
Definition rendered (fr : Frame) (st : State) : option Ptr.t :=
  gPatterns !! Z.to_nat (gCurrentPatternNumber (select (pins_of fr) st)).

(** Running the sketch over a sequence of frames. *)
Fixpoint run (frs : list Frame) (st : State) : option State :=
  match frs with
  | [] => Some st
  | fr :: frs' =>
      match loop fr st with
      | None => None
      | Some (st', _) => run frs' st'
      end
  end.

End Rainbow.

(** The auto-cycle flag is tested as a C truth value. *)
Definition cycle_enabled (st : State) : bool := negb (gCycle st =? 0).

(** A valid registry index. *)
Definition valid_index (st : State) : Prop :=
  0 <= gCurrentPatternNumber st < ARRAY_SIZE gPatterns.

(** Example pin settings: no jumper at all, and jumpers on pins 3 and 5
    (offsets 1 and 3 of the function group). *)
Definition no_jumper : Pins := fun _ => true.
Definition jumpers_3_5 : Pins := fun p => negb ((p =? 3) || (p =? 5)).

(** A stand-in colour conversion for evaluating the sketch on examples. *)
Definition sample_hsv2rgb (c : CHSV) : CRGB := mkCRGB (hue c) (sat c) (val c).

(** ** Closed forms of what the renderers write *)

(** The colour that [multi] writes at position [i]. *)
Definition multi_pixel (i : nat) : CRGB :=
  match (i mod 5)%nat with
  | 0%nat => mkCRGB 80 255 0
  | 1%nat => mkCRGB 0 0 255
  | 2%nat => mkCRGB 255 0 0
  | 3%nat => mkCRGB 0 100 255
  | _ => mkCRGB 0 255 0
  end.

(** The hue [fill_rainbow] has reached after [m] steps of [deltahue]. *)
Definition hue_after (deltahue : Z) (m : nat) (h : Z) : Z :=
  Nat.iter m (fun x => uint8 (x + deltahue)) h.

(** The colour each renderer writes at position [i], given the hue. *)
Definition pixel_of (conv : CHSV -> CRGB) (f : Ptr.t) (h : Z) (i : nat) : CRGB :=
  match f with
  | Ptr.red => mkCRGB 0 255 0
  | Ptr.multi => multi_pixel i
  | Ptr.blue => mkCRGB 0 0 255
  | Ptr.green => mkCRGB 255 0 0
  | Ptr.white => mkCRGB 255 255 255
  | Ptr.rainbow => conv (mkCHSV (hue_after 7 i h) 240 255)
  end.

(** ** Pin configuration: the pin part of setup (lines 80-90)

    [pinMode] records the direction of a pin and [digitalWrite] its output
    latch, which on an input pin is the pull-up enable. *)






(** How many frames of a run see a given timer fire. *)
Definition firings (due : Frame -> bool) (frs : list Frame) : nat :=
  length (List.filter due frs).

(** No function pin is grounded in any frame of a run. *)
Definition no_override (frs : list Frame) : Prop :=
  Forall (fun fr => functionSelect (pins_of fr) = -1) frs.

(** * Properties *)

(** ** Basic facts *)

Lemma ARRAY_SIZE_gPatterns : ARRAY_SIZE gPatterns = 6.
Proof. reflexivity. Qed.

Lemma uint8_small z : 0 <= z < 256 -> uint8 z = z.
Proof. intros H. unfold uint8. apply Z.mod_small. exact H. Qed.

Lemma int8_small z : -128 <= z < 128 -> int8 z = z.
Proof. intros H. unfold int8. rewrite Z.mod_small; lia. Qed.

Lemma digitalRead_low pins p : (digitalRead pins p =? 0) = negb (pins p).
Proof. unfold digitalRead. destruct (pins p); reflexivity. Qed.

(** ** The scan of functionSelect *)

Lemma fsel_scan_none pins n : forall i,
  (forall j, i <= j < i + Z.of_nat n -> pins (BASE_FSEL_PIN + j) = true) ->
  fsel_scan pins i n = -1.
Proof.
  induction n as [|n IH]; intros i Hall.
  - reflexivity.
  - cbn [fsel_scan]. rewrite digitalRead_low, (Hall i) by lia. cbn [negb].
    apply IH. intros j Hj. apply Hall. lia.
Qed.

Lemma fsel_scan_first pins n : forall i k,
  i <= k < i + Z.of_nat n ->
  -128 <= k < 128 ->
  pins (BASE_FSEL_PIN + k) = false ->
  (forall j, i <= j < k -> pins (BASE_FSEL_PIN + j) = true) ->
  fsel_scan pins i n = k.
Proof.
  induction n as [|n IH]; intros i k Hk Hr Hlow Hhigh.
  - lia.
  - cbn [fsel_scan]. rewrite digitalRead_low.
    destruct (Z.eq_dec i k) as [->|Hne].
    + rewrite Hlow. cbn [negb]. apply int8_small. exact Hr.
    + rewrite (Hhigh i) by lia. cbn [negb].
      apply IH; [lia | exact Hr | exact Hlow |].
      intros j Hj. apply Hhigh. lia.
Qed.

(** Among finitely many pins, one grounded pin yields a lowest one. *)
Lemma least_grounded pins n : forall i,
  (exists j, i <= j < i + Z.of_nat n /\ pins (BASE_FSEL_PIN + j) = false) ->
  exists k, i <= k < i + Z.of_nat n /\ pins (BASE_FSEL_PIN + k) = false /\
            forall j, i <= j < k -> pins (BASE_FSEL_PIN + j) = true.
Proof.
  induction n as [|n IH]; intros i [j [Hj Hlow]].
  - lia.
  - destruct (pins (BASE_FSEL_PIN + i)) eqn:Hi.
    + destruct (IH (i + 1)) as [k [Hk [Hklow Hkmin]]].
      * exists j. split; [|exact Hlow].
        assert (j <> i) by (intros ->; congruence). lia.
      * exists k. split; [lia|]. split; [exact Hklow|].
        intros j' Hj'. destruct (Z.eq_dec j' i) as [->|]; [exact Hi|].
        apply Hkmin. lia.
    + exists i. split; [lia|]. split; [exact Hi|]. intros j' Hj'. lia.
Qed.

Lemma functionSelect_range pins :
  functionSelect pins = -1 \/ 0 <= functionSelect pins < 6.
Proof.
  unfold functionSelect. change (Z.to_nat (ARRAY_SIZE gPatterns)) with 6%nat.
  cbn [fsel_scan]. rewrite !digitalRead_low.
  repeat match goal with
         | |- context [negb (pins ?p)] => destruct (pins p); cbn [negb]
         end; vm_compute; intuition congruence.
Qed.

Lemma functionSelect_none pins :
  (forall i, 0 <= i < 6 -> ~ grounded pins (BASE_FSEL_PIN + i)) ->
  functionSelect pins = -1.
Proof.
  intros Hnone. apply fsel_scan_none. intros j Hj.
  change (Z.of_nat (Z.to_nat (ARRAY_SIZE gPatterns))) with 6 in Hj.
  apply not_false_iff_true. apply Hnone. lia.
Qed.

(** ** Fields touched by the state updates *)

Lemma nextPattern_hue st : gHue (nextPattern st) = gHue st.
Proof. unfold nextPattern. destruct (gCycle st =? 0); reflexivity. Qed.

Lemma nextPattern_cycle st : gCycle (nextPattern st) = gCycle st.
Proof. unfold nextPattern. destruct (gCycle st =? 0); reflexivity. Qed.

Lemma nextPattern_leds st : leds (nextPattern st) = leds st.
Proof. unfold nextPattern. destruct (gCycle st =? 0); reflexivity. Qed.

Lemma nextPattern_enabled st :
  gCycle st <> 0 ->
  gCurrentPatternNumber (nextPattern st) = (gCurrentPatternNumber st + 1) mod 6.
Proof.
  intros Hc. unfold nextPattern. apply Z.eqb_neq in Hc. rewrite Hc.
  cbn [set_pattern gCurrentPatternNumber]. rewrite ARRAY_SIZE_gPatterns.
  apply uint8_small.
  pose proof (Z.mod_pos_bound (gCurrentPatternNumber st + 1) 6). lia.
Qed.

Lemma nextPattern_disabled st : gCycle st = 0 -> nextPattern st = st.
Proof. intros Hc. unfold nextPattern. rewrite Hc. reflexivity. Qed.

Lemma select_hue pins st : gHue (select pins st) = gHue st.
Proof.
  unfold select. destruct (functionSelect pins =? -1); [|reflexivity].
  destruct (gCycle st =? 0); [|reflexivity].
  rewrite nextPattern_hue. reflexivity.
Qed.

Lemma select_leds pins st : leds (select pins st) = leds st.
Proof.
  unfold select. destruct (functionSelect pins =? -1); [|reflexivity].
  destruct (gCycle st =? 0); [|reflexivity].
  rewrite nextPattern_leds. reflexivity.
Qed.

Lemma select_override pins st k :
  functionSelect pins = k -> 0 <= k < 6 ->
  gCycle (select pins st) = 0 /\ gCurrentPatternNumber (select pins st) = k.
Proof.
  intros Hf Hk. unfold select. rewrite Hf.
  destruct (k =? -1) eqn:E; [apply Z.eqb_eq in E; lia|].
  cbn. split; [reflexivity|]. apply uint8_small. lia.
Qed.

Lemma select_edge pins st :
  functionSelect pins = -1 -> gCycle st = 0 ->
  select pins st = mkState 1 1 (gHue st) (leds st).
Proof. intros Hf Hc. unfold select. rewrite Hf, Hc. reflexivity. Qed.

Lemma select_steady pins st :
  functionSelect pins = -1 -> gCycle st <> 0 -> select pins st = st.
Proof.
  intros Hf Hc. unfold select. rewrite Hf. apply Z.eqb_neq in Hc.
  rewrite Hc. reflexivity.
Qed.

(** ** The fill loops of the renderers *)

Lemma for_from_ext {T} (b1 b2 : nat -> T -> T) n : forall i st,
  (forall j s, b1 j s = b2 j s) -> for_from i n b1 st = for_from i n b2 st.
Proof.
  induction n as [|n IH]; intros i st Hb; cbn [for_from]; [reflexivity|].
  rewrite Hb. apply IH. exact Hb.
Qed.

Lemma multi_body_set_led i st : multi_body i st = set_led i (multi_pixel i) st.
Proof.
  unfold multi_body, multi_pixel.
  pose proof (Nat.mod_upper_bound i 5 ltac:(lia)) as Hlt.
  destruct (i mod 5)%nat as [|[|[|[|[|m]]]]]; try reflexivity. lia.
Qed.

Lemma for_from_set_led_selector (c : nat -> CRGB) n : forall i st,
  selector (for_from i n (fun j => set_led j (c j)) st) = selector st.
Proof.
  induction n as [|n IH]; intros i st; cbn [for_from]; [reflexivity|].
  rewrite IH. reflexivity.
Qed.

Lemma for_from_set_led_length (c : nat -> CRGB) n : forall i st,
  length (leds (for_from i n (fun j => set_led j (c j)) st)) = length (leds st).
Proof.
  induction n as [|n IH]; intros i st; cbn [for_from]; [reflexivity|].
  rewrite IH. cbn [set_led leds]. apply length_insert.
Qed.

Lemma for_from_set_led_lookup (c : nat -> CRGB) n : forall i st k,
  leds (for_from i n (fun j => set_led j (c j)) st) !! k =
  if decide ((i <= k < i + n)%nat /\ (k < length (leds st))%nat)
  then Some (c k) else leds st !! k.
Proof.
  induction n as [|n IH]; intros i st k; cbn [for_from].
  - case_decide; [lia | reflexivity].
  - rewrite IH. cbn [set_led leds]. rewrite length_insert, list_lookup_insert.
    repeat case_decide; try reflexivity; try lia.
    match goal with H : _ = _ /\ _ |- _ => destruct H as [-> _] end.
    reflexivity.
Qed.

Lemma fill_rainbow_from_selector conv n : forall i hsv d st,
  selector (fill_rainbow_from conv i n hsv d st) = selector st.
Proof.
  induction n as [|n IH]; intros i hsv d st; cbn [fill_rainbow_from];
    [reflexivity|].
  rewrite IH. reflexivity.
Qed.

Lemma fill_rainbow_from_length conv n : forall i hsv d st,
  length (leds (fill_rainbow_from conv i n hsv d st)) = length (leds st).
Proof.
  induction n as [|n IH]; intros i hsv d st; cbn [fill_rainbow_from];
    [reflexivity|].
  rewrite IH. cbn [set_led leds]. apply length_insert.
Qed.

Lemma fill_rainbow_from_lookup conv n : forall i hsv d st k,
  leds (fill_rainbow_from conv i n hsv d st) !! k =
  if decide ((i <= k < i + n)%nat /\ (k < length (leds st))%nat)
  then Some (conv (mkCHSV (hue_after d (k - i) (hue hsv)) (sat hsv) (val hsv)))
  else leds st !! k.
Proof.
  induction n as [|n IH]; intros i hsv d st k; cbn [fill_rainbow_from].
  - case_decide; [lia | reflexivity].
  - rewrite IH. cbn [set_led leds hue sat val].
    rewrite length_insert, list_lookup_insert.
    repeat case_decide; try reflexivity; try lia.
    + replace (k - i)%nat with (S (k - S i)) by lia.
      unfold hue_after. rewrite Nat.iter_succ_r. reflexivity.
    + match goal with H : _ = _ /\ _ |- _ => destruct H as [-> _] end.
      rewrite Nat.sub_diag. destruct hsv; reflexivity.
Qed.

(** Without wrap-around in the start value, the hue at position [m] is the
    start hue plus [m] steps, modulo 256. *)
Lemma hue_after_closed d m h :
  0 <= h < 256 -> hue_after d m h = (h + Z.of_nat m * d) mod 256.
Proof.
  intros Hh. unfold hue_after. induction m as [|m IH].
  - cbn. rewrite Z.add_0_r, Z.mod_small; lia.
  - rewrite Nat.iter_succ, IH. unfold uint8.
    rewrite Zplus_mod_idemp_l. f_equal. lia.
Qed.

Lemma call_selector conv f st : selector (call conv f st) = selector st.
Proof.
  destruct f; cbn [call]; unfold red, multi, blue, green, white, rainbow,
    fill_rainbow.
  1,3,4,5: apply for_from_set_led_selector.
  - rewrite (for_from_ext multi_body (fun j => set_led j (multi_pixel j)))
      by apply multi_body_set_led.
    apply for_from_set_led_selector.
  - apply fill_rainbow_from_selector.
Qed.

Lemma call_length conv f st : length (leds (call conv f st)) = length (leds st).
Proof.
  destruct f; cbn [call]; unfold red, multi, blue, green, white, rainbow,
    fill_rainbow.
  1,3,4,5: apply for_from_set_led_length.
  - rewrite (for_from_ext multi_body (fun j => set_led j (multi_pixel j)))
      by apply multi_body_set_led.
    apply for_from_set_led_length.
  - apply fill_rainbow_from_length.
Qed.

Lemma call_lookup conv f st (k : nat) :
  (k < NUM_LEDS)%nat -> length (leds st) = NUM_LEDS ->
  leds (call conv f st) !! k = Some (pixel_of conv f (gHue st) k).
Proof.
  intros Hk Hlen.
  destruct f; cbn [call pixel_of]; unfold red, multi, blue, green, white,
    rainbow, fill_rainbow.
  1,3,4,5: rewrite for_from_set_led_lookup; case_decide; [reflexivity | lia].
  - rewrite (for_from_ext multi_body (fun j => set_led j (multi_pixel j)))
      by apply multi_body_set_led.
    rewrite for_from_set_led_lookup. case_decide; [reflexivity | lia].
  - rewrite fill_rainbow_from_lookup. case_decide; [|lia].
    cbn [hue sat val]. rewrite Nat.sub_0_r. reflexivity.
Qed.

Lemma call_hue conv f st : gHue (call conv f st) = gHue st.
Proof.
  pose proof (call_selector conv f st) as H. unfold selector in H.
  congruence.
Qed.

Lemma call_pattern conv f st :
  gCurrentPatternNumber (call conv f st) = gCurrentPatternNumber st.
Proof.
  pose proof (call_selector conv f st) as H. unfold selector in H.
  congruence.
Qed.

Lemma call_cycle conv f st : gCycle (call conv f st) = gCycle st.
Proof.
  pose proof (call_selector conv f st) as H. unfold selector in H.
  congruence.
Qed.

(** The buffer a renderer leaves behind, in closed form. *)
Lemma call_leds conv f st :
  length (leds st) = NUM_LEDS ->
  leds (call conv f st) = pixel_of conv f (gHue st) <$> seq 0 NUM_LEDS.
Proof.
  intros Hlen. apply list_eq. intros k.
  rewrite list_lookup_fmap.
  destruct (decide (k < NUM_LEDS)%nat) as [Hk|Hk].
  - rewrite call_lookup by assumption.
    rewrite lookup_seq_lt by exact Hk. reflexivity.
  - rewrite lookup_ge_None_2 by (rewrite call_length; lia).
    rewrite lookup_seq_ge by lia. reflexivity.
Qed.

(** ** The index invariant and the frame loop *)

Lemma valid_index_lookup st :
  valid_index st ->
  exists f, gPatterns !! Z.to_nat (gCurrentPatternNumber st) = Some f.
Proof.
  intros [Hlo Hhi]. apply lookup_lt_is_Some_2.
  unfold ARRAY_SIZE in Hhi. lia.
Qed.

Lemma nextPattern_valid st : valid_index st -> valid_index (nextPattern st).
Proof.
  intros Hv. unfold nextPattern. destruct (gCycle st =? 0); [exact Hv|].
  unfold valid_index. cbn [set_pattern gCurrentPatternNumber].
  rewrite ARRAY_SIZE_gPatterns.
  pose proof (Z.mod_pos_bound (gCurrentPatternNumber st + 1) 6 ltac:(lia)).
  rewrite uint8_small; lia.
Qed.

Lemma hue_tick_valid st : valid_index st -> valid_index (hue_tick st).
Proof. intros Hv. exact Hv. Qed.

Lemma select_valid pins st : valid_index st -> valid_index (select pins st).
Proof.
  intros Hv. destruct (functionSelect_range pins) as [Hf|Hf].
  - destruct (Z.eq_dec (gCycle st) 0) as [Hc|Hc].
    + rewrite select_edge by assumption. vm_compute. intuition congruence.
    + rewrite select_steady by assumption. exact Hv.
  - destruct (select_override pins st _ eq_refl Hf) as [_ Hp].
    unfold valid_index. rewrite Hp, ARRAY_SIZE_gPatterns. exact Hf.
Qed.

Lemma call_valid conv f st : valid_index st -> valid_index (call conv f st).
Proof. unfold valid_index. rewrite call_pattern. trivial. Qed.

(** What a frame that returns has done. *)
Lemma loop_Some conv fr st st' out :
  loop conv fr st = Some (st', out) ->
  exists f, rendered fr st = Some f /\
    let st2 := call conv f (select (pins_of fr) st) in
    let st3 := if hue_due fr then hue_tick st2 else st2 in
    st' = (if advance_due fr then advance_tick st3 else st3) /\
    out = mkShown (brightness_of (pins_of fr)) (leds st2).
Proof.
  unfold loop, rendered.
  destruct (gPatterns !! Z.to_nat (gCurrentPatternNumber (select (pins_of fr) st)))
    as [f|]; [|discriminate].
  intros H. injection H as <- <-. exists f. repeat split.
Qed.

(** A frame started at a valid index returns. *)
Lemma loop_total conv fr st :
  valid_index (select (pins_of fr) st) ->
  exists st' out, loop conv fr st = Some (st', out).
Proof.
  intros Hv. destruct (valid_index_lookup _ Hv) as [f Hf].
  unfold loop. rewrite Hf. eauto.
Qed.

Lemma loop_valid conv fr st st' out :
  valid_index st -> loop conv fr st = Some (st', out) -> valid_index st'.
Proof.
  intros Hv Hl. destruct (loop_Some _ _ _ _ _ Hl) as [f [_ [-> _]]].
  pose proof (call_valid conv f _ (select_valid (pins_of fr) st Hv)) as H2.
  destruct (hue_due fr), (advance_due fr); unfold advance_tick;
    auto using nextPattern_valid, hue_tick_valid.
Qed.

Lemma loop_hue conv fr st st' out :
  loop conv fr st = Some (st', out) ->
  gHue st' = if hue_due fr then uint8 (gHue st + 1) else gHue st.
Proof.
  intros Hl. destruct (loop_Some _ _ _ _ _ Hl) as [f [_ [-> _]]].
  destruct (hue_due fr), (advance_due fr); unfold advance_tick, hue_tick;
    rewrite ?nextPattern_hue; cbn [set_hue gHue];
    rewrite call_hue, select_hue; reflexivity.
Qed.

Lemma run_valid conv frs : forall st,
  valid_index st -> exists st', run conv frs st = Some st' /\ valid_index st'.
Proof.
  induction frs as [|fr frs IH]; intros st Hv; cbn [run].
  - eauto.
  - destruct (loop_total conv fr st (select_valid _ _ Hv)) as [st1 [out Hl]].
    rewrite Hl. apply IH. eapply loop_valid; eassumption.
Qed.

(** ** Whole frames *)

Lemma valid_index_6 st :
  valid_index st <-> 0 <= gCurrentPatternNumber st < 6.
Proof. unfold valid_index. rewrite ARRAY_SIZE_gPatterns. reflexivity. Qed.

Lemma loop_brightness conv fr st st' out :
  loop conv fr st = Some (st', out) ->
  shown_brightness out = brightness_of (pins_of fr).
Proof.
  intros Hl. destruct (loop_Some _ _ _ _ _ Hl) as [f [_ [_ ->]]]. reflexivity.
Qed.

(** A frame with an override ends in the overriding pattern, cycle off. *)
Lemma loop_override conv fr st k :
  functionSelect (pins_of fr) = k -> 0 <= k < 6 ->
  exists st' out, loop conv fr st = Some (st', out) /\
    gCycle st' = 0 /\ gCurrentPatternNumber st' = k.
Proof.
  intros Hf Hk.
  destruct (select_override (pins_of fr) st k Hf Hk) as [Hc Hp].
  destruct (loop_total conv fr st) as [st' [out Hl]].
  { apply valid_index_6. rewrite Hp. exact Hk. }
  exists st', out. split; [exact Hl|].
  destruct (loop_Some _ _ _ _ _ Hl) as [f [_ [-> _]]].
  set (st2 := call conv f _).
  assert (Hc2 : gCycle st2 = 0) by (unfold st2; rewrite call_cycle; exact Hc).
  assert (Hp2 : gCurrentPatternNumber st2 = k)
    by (unfold st2; rewrite call_pattern; exact Hp).
  clearbody st2.
  destruct (hue_due fr), (advance_due fr); unfold advance_tick;
    rewrite ?nextPattern_disabled by (cbn; assumption); cbn; auto.
Qed.

(** A no-override frame entered with the cycle off: the edge. *)
Lemma loop_edge conv fr st :
  functionSelect (pins_of fr) = -1 -> gCycle st = 0 ->
  exists st' out, loop conv fr st = Some (st', out) /\
    gCycle st' = 1 /\
    gCurrentPatternNumber st' = if advance_due fr then 2 else 1.
Proof.
  intros Hf Hc. pose proof (select_edge _ st Hf Hc) as Hs.
  destruct (loop_total conv fr st) as [st' [out Hl]].
  { rewrite Hs. apply valid_index_6. cbn [gCurrentPatternNumber]. lia. }
  exists st', out. split; [exact Hl|].
  destruct (loop_Some _ _ _ _ _ Hl) as [f [_ [-> _]]].
  set (st2 := call conv f _).
  assert (Hc2 : gCycle st2 = 1)
    by (unfold st2; rewrite call_cycle, Hs; reflexivity).
  assert (Hp2 : gCurrentPatternNumber st2 = 1)
    by (unfold st2; rewrite call_pattern, Hs; reflexivity).
  clearbody st2.
  destruct (hue_due fr), (advance_due fr); unfold advance_tick;
    rewrite ?nextPattern_cycle, ?nextPattern_enabled
      by (cbn [hue_tick set_hue gCycle]; lia);
    cbn [hue_tick set_hue gCycle gCurrentPatternNumber];
    rewrite ?Hp2; auto.
Qed.

Lemma run_app conv frs1 : forall frs2 st,
  run conv (frs1 ++ frs2) st =
  match run conv frs1 st with
  | Some st1 => run conv frs2 st1
  | None => None
  end.
Proof.
  induction frs1 as [|fr frs1 IH]; intros frs2 st; cbn [run app];
    [reflexivity|].
  destruct (loop conv fr st) as [[st1 out]|]; [apply IH | reflexivity].
Qed.

(** While the same jumper stays in place, every frame ends in its pattern. *)
Lemma run_override conv fr k n :
  functionSelect (pins_of fr) = k -> 0 <= k < 6 -> (0 < n)%nat ->
  forall st, exists st', run conv (replicate n fr) st = Some st' /\
    gCycle st' = 0 /\ gCurrentPatternNumber st' = k.
Proof.
  intros Hf Hk Hn. destruct n as [|n]; [lia|]. clear Hn.
  induction n as [|n IH]; intros st.
  - destruct (loop_override conv fr st k Hf Hk) as [st' [out [Hl H]]].
    exists st'. cbn [replicate run]. rewrite Hl. split; [reflexivity | exact H].
  - destruct (loop_override conv fr st k Hf Hk) as [st1 [out [Hl _]]].
    destruct (IH st1) as [st' [Hr H]].
    exists st'. change (replicate (S (S n)) fr) with (fr :: replicate (S n) fr).
    cbn [run]. rewrite Hl. split; [exact Hr | exact H].
Qed.

Lemma multi_leds st :
  length (leds st) = NUM_LEDS -> leds (multi st) = multi_pixel <$> seq 0 NUM_LEDS.
Proof. intros Hlen. exact (call_leds sample_hsv2rgb Ptr.multi st Hlen). Qed.

Lemma red_leds st :
  length (leds st) = NUM_LEDS ->
  leds (red st) = (fun _ => mkCRGB 0 255 0) <$> seq 0 NUM_LEDS.
Proof. intros Hlen. exact (call_leds sample_hsv2rgb Ptr.red st Hlen). Qed.

(** * The claims *)

(** C1.  On every frame the function selector scans the six function-group
    pins in increasing pin order and the first grounded pin wins: when some
    function pin is grounded, [functionSelect] returns the offset [k] of the
    lowest grounded one, the selection step clears the auto-cycle flag and
    sets the pattern index to [k], and both still hold when the frame ends;
    when none is grounded, [functionSelect] returns -1. *)
Theorem functionSelect_lowest_grounded_wins
    (conv : CHSV -> CRGB) (fr : Frame) (st : State) :
  ((exists i, 0 <= i < 6 /\ grounded (pins_of fr) (BASE_FSEL_PIN + i)) ->
   exists k, 0 <= k < 6 /\ grounded (pins_of fr) (BASE_FSEL_PIN + k) /\
     (forall j, 0 <= j < k -> ~ grounded (pins_of fr) (BASE_FSEL_PIN + j)) /\
     functionSelect (pins_of fr) = k /\
     gCycle (select (pins_of fr) st) = 0 /\
     gCurrentPatternNumber (select (pins_of fr) st) = k /\
     exists st' out, loop conv fr st = Some (st', out) /\
       gCycle st' = 0 /\ gCurrentPatternNumber st' = k) /\
  ((forall i, 0 <= i < 6 -> ~ grounded (pins_of fr) (BASE_FSEL_PIN + i)) ->
   functionSelect (pins_of fr) = -1).
Proof.
  split.
  - intros Hex.
    destruct (least_grounded (pins_of fr) 6 0) as [k [Hk [Hlow Hmin]]].
    { destruct Hex as [i [Hi Hg]]. exists i. split; [lia | exact Hg]. }
    assert (Hf : functionSelect (pins_of fr) = k).
    { apply fsel_scan_first; try assumption;
        change (ARRAY_SIZE gPatterns) with 6; lia. }
    assert (Hk6 : 0 <= k < 6) by lia.
    destruct (select_override (pins_of fr) st k Hf Hk6) as [Hc Hp].
    exists k. repeat split; try assumption; try lia.
    + intros j Hj Hg. unfold grounded in Hg. rewrite Hmin in Hg by lia.
      discriminate.
    + apply loop_override; assumption.
  - apply functionSelect_none.
Qed.

Lemma functionSelect_lowest_grounded_wins_witness :
  (exists k, 0 <= k < 6 /\ grounded jumpers_3_5 (BASE_FSEL_PIN + k) /\
     (forall j, 0 <= j < k -> ~ grounded jumpers_3_5 (BASE_FSEL_PIN + j)) /\
     functionSelect jumpers_3_5 = k /\
     gCycle (select jumpers_3_5 init) = 0 /\
     gCurrentPatternNumber (select jumpers_3_5 init) = k /\
     exists st' out,
       loop sample_hsv2rgb (mkFrame jumpers_3_5 true true) init = Some (st', out) /\
       gCycle st' = 0 /\ gCurrentPatternNumber st' = k) /\
  functionSelect no_jumper = -1.
Proof.
  split.
  - apply (proj1 (functionSelect_lowest_grounded_wins sample_hsv2rgb
                    (mkFrame jumpers_3_5 true true) init)).
    exists 1. split; [lia | reflexivity].
  - apply (proj2 (functionSelect_lowest_grounded_wins sample_hsv2rgb
                    (mkFrame no_jumper true true) init)).
    intros i _ H. discriminate H.
Defined.

(** C2.  The brightness of a frame depends on the two brightness pins only:
    63 when neither is grounded, 127 when only [BSEL_PIN1] is, 191 when only
    [BSEL_PIN2] is, 255 when both are; and every frame hands exactly this
    value to the strip driver, whatever the state it starts from. *)
Theorem brightness_tiers (conv : CHSV -> CRGB) (fr : Frame) (st : State) :
  brightness_of (pins_of fr) =
    match pins_of fr BSEL_PIN1, pins_of fr BSEL_PIN2 with
    | true, true => 63
    | false, true => 127
    | true, false => 191
    | false, false => 255
    end /\
  (0 <= gCurrentPatternNumber st < 6 ->
   exists st' out, loop conv fr st = Some (st', out) /\
     shown_brightness out = brightness_of (pins_of fr)).
Proof.
  split.
  - unfold brightness_of, digitalRead.
    destruct (pins_of fr BSEL_PIN1), (pins_of fr BSEL_PIN2); reflexivity.
  - intros Hv. apply valid_index_6 in Hv.
    destruct (loop_total conv fr st (select_valid _ _ Hv)) as [st' [out Hl]].
    exists st', out. split; [exact Hl|]. eapply loop_brightness. exact Hl.
Qed.

Lemma brightness_tiers_witness :
  exists st' out,
    loop sample_hsv2rgb (mkFrame (fun p => negb (p =? BSEL_PIN1)) false false) init
      = Some (st', out) /\
    shown_brightness out = 127.
Proof.
  apply (proj2 (brightness_tiers sample_hsv2rgb
                  (mkFrame (fun p => negb (p =? BSEL_PIN1)) false false) init)).
  cbn [gCurrentPatternNumber init]. lia.
Defined.

(** C3, as the sketch has it.  The static initialisers set the pattern index
    to 0, the auto-cycle flag to 0 (disabled) and the hue to 0, and [setup]
    writes none of the three. *)
Theorem startup_selector_state :
  gCurrentPatternNumber init = 0 /\
  gCycle init = 0 /\ cycle_enabled init = false /\
  gHue init = 0 /\
  forall st, selector (setup st) = selector st.
Proof. repeat split. Qed.

(** C3, as stated, fails: after start-up auto-cycle is not enabled. *)
Lemma startup_cycle_not_enabled :
  ~ (gCurrentPatternNumber (setup init) = 0 /\
     cycle_enabled (setup init) = true /\
     gHue (setup init) = 0).
Proof. intros [_ [H _]]. discriminate H. Qed.

(** C4, as the sketch has it.  On a frame with no function pin grounded that
    starts with auto-cycle disabled, the selection step enables auto-cycle,
    resets the index to 0 and advances once: the index is 1, the pattern
    rendered in that frame is registry entry 1, and when the frame ends the
    index is 1 unless the 60-second timer fires in that same frame, which
    advances it once more to 2.  On a no-override frame that starts with
    auto-cycle enabled the selection step changes nothing. *)
Theorem cycle_enable_edge (conv : CHSV -> CRGB) (fr : Frame) (st : State) :
  functionSelect (pins_of fr) = -1 ->
  (gCycle st = 0 ->
     select (pins_of fr) st = mkState 1 1 (gHue st) (leds st) /\
     rendered fr st = Some Ptr.multi /\
     exists st' out, loop conv fr st = Some (st', out) /\
       gCycle st' = 1 /\
       gCurrentPatternNumber st' = if advance_due fr then 2 else 1) /\
  (gCycle st <> 0 -> select (pins_of fr) st = st).
Proof.
  intros Hf. split.
  - intros Hc. pose proof (select_edge _ st Hf Hc) as Hs.
    split; [exact Hs|]. split.
    + unfold rendered. rewrite Hs. reflexivity.
    + apply loop_edge; assumption.
  - intros Hc. apply select_steady; assumption.
Qed.

Lemma cycle_enable_edge_witness :
  (select no_jumper init = mkState 1 1 (gHue init) (leds init) /\
   rendered (mkFrame no_jumper false false) init = Some Ptr.multi /\
   exists st' out,
     loop sample_hsv2rgb (mkFrame no_jumper false false) init = Some (st', out) /\
     gCycle st' = 1 /\ gCurrentPatternNumber st' = 1) /\
  select no_jumper (mkState 4 1 0 (leds init)) = mkState 4 1 0 (leds init).
Proof.
  split.
  - apply (proj1 (cycle_enable_edge sample_hsv2rgb
                    (mkFrame no_jumper false false) init eq_refl)).
    reflexivity.
  - apply (proj2 (cycle_enable_edge sample_hsv2rgb
                    (mkFrame no_jumper false false)
                    (mkState 4 1 0 (leds init)) eq_refl)).
    discriminate.
Defined.

(** C4, as stated, fails.  After power-up a jumper on pins 3 and 5 stays in
    place for a minute (60 * 120 frames at the nominal frame rate), so
    auto-cycle is off; the jumper is then removed, and the frame that sees
    the removal is also the one in which the 60-second timer fires.  That
    transition frame ends with index 2, not 1. *)
Lemma cycle_enable_edge_with_advance_due :
  let held := mkFrame jumpers_3_5 false false in
  let released := mkFrame no_jumper false true in
  functionSelect (pins_of held) = 1 /\
  functionSelect (pins_of released) = -1 /\
  exists st1 st2,
    run sample_hsv2rgb (replicate (60 * 120) held) init = Some st1 /\
    gCycle st1 = 0 /\
    loop sample_hsv2rgb released st1 <> None /\
    run sample_hsv2rgb (replicate (60 * 120) held ++ [released]) init
      = Some st2 /\
    gCycle st2 = 1 /\
    gCurrentPatternNumber st2 = 2 /\
    gCurrentPatternNumber st2 <> 1.
Proof.
  intros held released.
  split; [reflexivity|]. split; [reflexivity|].
  destruct (run_override sample_hsv2rgb held 1 (60 * 120) eq_refl
              ltac:(lia) ltac:(lia) init) as [st1 [H1 [Hc1 _]]].
  destruct (loop_edge sample_hsv2rgb released st1 eq_refl Hc1)
    as [st2 [out2 [H2 [Hc2 Hp2]]]].
  cbn [advance_due released] in Hp2.
  exists st1, st2. rewrite run_app, H1. cbn [run]. rewrite H2.
  repeat split; try assumption; [discriminate|]. rewrite Hp2. discriminate.
Qed.

(** C5.  The pattern index is a valid registry index, [0 <= index < 6]: at
    initialisation, after the selection step (override assignment and
    cycle-enable edge alike), after each firing of either timer, at the end
    of every frame, and hence in every state the sketch reaches from
    power-up, where every frame returns. *)
Theorem pattern_index_always_valid (conv : CHSV -> CRGB) :
  0 <= gCurrentPatternNumber init < 6 /\
  (forall fr st, 0 <= gCurrentPatternNumber st < 6 ->
     0 <= gCurrentPatternNumber (select (pins_of fr) st) < 6 /\
     0 <= gCurrentPatternNumber (advance_tick st) < 6 /\
     0 <= gCurrentPatternNumber (hue_tick st) < 6 /\
     exists st' out, loop conv fr st = Some (st', out) /\
                     0 <= gCurrentPatternNumber st' < 6) /\
  (forall frs, exists st, run conv frs init = Some st /\
                          0 <= gCurrentPatternNumber st < 6).
Proof.
  assert (Hinit : valid_index init)
    by (apply valid_index_6; cbn [gCurrentPatternNumber init]; lia).
  split; [apply valid_index_6; exact Hinit|]. split.
  - intros fr st Hv. apply valid_index_6 in Hv.
    split; [apply valid_index_6, select_valid; exact Hv|].
    split; [apply valid_index_6, nextPattern_valid; exact Hv|].
    split; [apply valid_index_6, hue_tick_valid; exact Hv|].
    destruct (loop_total conv fr st (select_valid _ _ Hv)) as [st' [out Hl]].
    exists st', out. split; [exact Hl|].
    apply valid_index_6. eapply loop_valid; eassumption.
  - intros frs. destruct (run_valid conv frs init Hinit) as [st [Hr Hv]].
    exists st. split; [exact Hr|]. apply valid_index_6. exact Hv.
Qed.

Lemma pattern_index_always_valid_witness :
  0 <= gCurrentPatternNumber (select jumpers_3_5 (mkState 5 1 255 (leds init))) < 6 /\
  0 <= gCurrentPatternNumber (advance_tick (mkState 5 1 255 (leds init))) < 6 /\
  0 <= gCurrentPatternNumber (hue_tick (mkState 5 1 255 (leds init))) < 6 /\
  exists st' out,
    loop sample_hsv2rgb (mkFrame jumpers_3_5 true true)
      (mkState 5 1 255 (leds init)) = Some (st', out) /\
    0 <= gCurrentPatternNumber st' < 6.
Proof.
  apply (proj1 (proj2 (pattern_index_always_valid sample_hsv2rgb))
           (mkFrame jumpers_3_5 true true) (mkState 5 1 255 (leds init))).
  cbn [gCurrentPatternNumber]. lia.
Defined.

(** C6.  A firing of the 60-second timer runs [nextPattern]: with auto-cycle
    enabled it sets the index to [(index + 1) mod 6] and leaves the cycle
    flag, the hue and the pixels as they were; with auto-cycle disabled it
    leaves the whole state unchanged, however often it fires, so that the
    first firing after auto-cycle is enabled again advances by one only.  In
    a frame, the firing is applied to the state the frame would otherwise
    end in. *)
Theorem advance_timer_firing (st : State) :
  (gCycle st <> 0 ->
     gCurrentPatternNumber (advance_tick st) = (gCurrentPatternNumber st + 1) mod 6 /\
     gCycle (advance_tick st) = gCycle st /\
     gHue (advance_tick st) = gHue st /\
     leds (advance_tick st) = leds st) /\
  (gCycle st = 0 ->
     advance_tick st = st /\
     (forall n, Nat.iter n advance_tick st = st) /\
     (forall n, gCurrentPatternNumber
                  (advance_tick (set_cycle 1 (Nat.iter n advance_tick st)))
                = (gCurrentPatternNumber st + 1) mod 6)) /\
  (0 <= gCurrentPatternNumber st < 6 ->
   forall conv pins hd, exists st' out,
     loop conv (mkFrame pins hd false) st = Some (st', out) /\
     loop conv (mkFrame pins hd true) st = Some (advance_tick st', out)).
Proof.
  unfold advance_tick. split; [|split].
  - intros Hc. split; [apply nextPattern_enabled; exact Hc|].
    split; [apply nextPattern_cycle|].
    split; [apply nextPattern_hue | apply nextPattern_leds].
  - intros Hc.
    assert (Hiter : forall n, Nat.iter n nextPattern st = st).
    { induction n as [|n IH]; [reflexivity|].
      rewrite Nat.iter_succ, IH. apply nextPattern_disabled. exact Hc. }
    split; [apply nextPattern_disabled; exact Hc|]. split; [exact Hiter|].
    intros n. rewrite Hiter. rewrite nextPattern_enabled by (cbn; lia).
    reflexivity.
  - intros Hv conv pins hd. apply valid_index_6 in Hv.
    destruct (valid_index_lookup _ (select_valid pins st Hv)) as [f Hf].
    unfold loop. cbn [pins_of hue_due advance_due]. rewrite Hf.
    eexists _, _. split; reflexivity.
Qed.

Lemma advance_timer_firing_witness :
  (gCurrentPatternNumber (advance_tick (mkState 5 1 9 (leds init))) = (5 + 1) mod 6 /\
   gCycle (advance_tick (mkState 5 1 9 (leds init))) = 1 /\
   gHue (advance_tick (mkState 5 1 9 (leds init))) = 9 /\
   leds (advance_tick (mkState 5 1 9 (leds init))) = leds init) /\
  advance_tick (mkState 5 0 9 (leds init)) = mkState 5 0 9 (leds init) /\
  (exists st' out,
     loop sample_hsv2rgb (mkFrame jumpers_3_5 false false)
       (mkState 5 1 9 (leds init)) = Some (st', out) /\
     loop sample_hsv2rgb (mkFrame jumpers_3_5 false true)
       (mkState 5 1 9 (leds init)) = Some (advance_tick st', out)).
Proof.
  split; [|split].
  - apply (proj1 (advance_timer_firing (mkState 5 1 9 (leds init)))).
    discriminate.
  - apply (proj1 (proj2 (advance_timer_firing (mkState 5 0 9 (leds init))))).
    reflexivity.
  - apply (proj2 (proj2 (advance_timer_firing (mkState 5 1 9 (leds init))))).
    cbn [gCurrentPatternNumber]. lia.
Defined.

(** C7.  A firing of the 20-millisecond timer sets the hue to
    [(hue + 1) mod 256] (so 255 becomes 0) and changes nothing else, whatever
    the auto-cycle flag and the pattern index are; a frame in which the timer
    fires ends with the hue it started with plus one, modulo 256, whatever
    the pins, the other timer and the selected pattern. *)
Theorem hue_timer_firing (st : State) :
  gHue (hue_tick st) = (gHue st + 1) mod 256 /\
  gHue (hue_tick (set_hue 255 st)) = 0 /\
  gCurrentPatternNumber (hue_tick st) = gCurrentPatternNumber st /\
  gCycle (hue_tick st) = gCycle st /\
  leds (hue_tick st) = leds st /\
  (0 <= gCurrentPatternNumber st < 6 ->
   forall conv pins ad, exists st' out,
     loop conv (mkFrame pins true ad) st = Some (st', out) /\
     gHue st' = (gHue st + 1) mod 256).
Proof.
  repeat split.
  intros Hv conv pins ad. apply valid_index_6 in Hv.
  destruct (loop_total conv (mkFrame pins true ad) st (select_valid _ _ Hv))
    as [st' [out Hl]].
  exists st', out. split; [exact Hl|]. apply loop_hue in Hl. exact Hl.
Qed.

Lemma hue_timer_firing_witness :
  exists st' out,
    loop sample_hsv2rgb (mkFrame jumpers_3_5 true false)
      (mkState 2 0 255 (leds init)) = Some (st', out) /\
    gHue st' = 0.
Proof.
  apply (proj2 (proj2 (proj2 (proj2 (proj2
           (hue_timer_firing (mkState 2 0 255 (leds init)))))))).
  cbn [gCurrentPatternNumber]. lia.
Defined.

(** C8.  For every entry of the registry and every prior content of the
    50-element pixel buffer, one call of the renderer assigns every element:
    element [k] becomes the colour the renderer computes for position [k]
    (from the hue alone, for [rainbow]), so the buffer after the call does
    not depend on what it held before. *)
Theorem renderer_overwrites_buffer
    (conv : CHSV -> CRGB) (i : nat) (f : Ptr.t) (st : State) :
  gPatterns !! i = Some f ->
  length (leds st) = NUM_LEDS ->
  length (leds (call conv f st)) = NUM_LEDS /\
  (forall k, (k < NUM_LEDS)%nat ->
     leds (call conv f st) !! k = Some (pixel_of conv f (gHue st) k)) /\
  leds (call conv f st) = pixel_of conv f (gHue st) <$> seq 0 NUM_LEDS /\
  (forall st0, length (leds st0) = NUM_LEDS -> gHue st0 = gHue st ->
     leds (call conv f st0) = leds (call conv f st)).
Proof.
  intros _ Hlen.
  split; [rewrite call_length; exact Hlen|].
  split; [intros k Hk; apply call_lookup; assumption|].
  split; [apply call_leds; exact Hlen|].
  intros st0 Hlen0 Hh. rewrite !call_leds by assumption. rewrite Hh.
  reflexivity.
Qed.

Lemma renderer_overwrites_buffer_witness :
  let st := mkState 3 1 250 (replicate NUM_LEDS (mkCRGB 1 2 3)) in
  length (leds (call sample_hsv2rgb Ptr.rainbow st)) = NUM_LEDS /\
  (forall k, (k < NUM_LEDS)%nat ->
     leds (call sample_hsv2rgb Ptr.rainbow st) !! k =
     Some (pixel_of sample_hsv2rgb Ptr.rainbow 250 k)) /\
  leds (call sample_hsv2rgb Ptr.rainbow st) =
    pixel_of sample_hsv2rgb Ptr.rainbow 250 <$> seq 0 NUM_LEDS /\
  (forall st0, length (leds st0) = NUM_LEDS -> gHue st0 = 250 ->
     leds (call sample_hsv2rgb Ptr.rainbow st0) =
     leds (call sample_hsv2rgb Ptr.rainbow st)).
Proof.
  intros st.
  apply (renderer_overwrites_buffer sample_hsv2rgb 5 Ptr.rainbow st);
    reflexivity.
Defined.

(** C9.  The auto-cycle flag starts at 0, so the first iteration of [loop]
    after power-up, with no function pin grounded, takes the cycle-enable
    edge: the selection step leaves index 1 with auto-cycle enabled, and the
    renderer that frame invokes is registry entry 1, [multi], not entry 0,
    [red]; the pixels shown are those of [multi]. *)
Theorem first_frame_renders_multi (conv : CHSV -> CRGB) (fr : Frame) :
  (forall i, 0 <= i < 6 -> ~ grounded (pins_of fr) (BASE_FSEL_PIN + i)) ->
  gCycle init = 0 /\
  select (pins_of fr) (setup init) = mkState 1 1 0 (leds init) /\
  rendered fr (setup init) = Some Ptr.multi /\
  gPatterns !! 1%nat = Some Ptr.multi /\
  gPatterns !! 0%nat = Some Ptr.red /\
  exists st' out, loop conv fr (setup init) = Some (st', out) /\
    shown_leds out = leds (multi init) /\
    shown_leds out <> leds (red init).
Proof.
  intros Hnone. apply functionSelect_none in Hnone.
  unfold setup.
  pose proof (select_edge _ init Hnone eq_refl) as Hs.
  cbn [gHue init] in Hs.
  split; [reflexivity|]. split; [exact Hs|].
  assert (Hr : rendered fr init = Some Ptr.multi)
    by (unfold rendered; rewrite Hs; reflexivity).
  split; [exact Hr|]. split; [reflexivity|]. split; [reflexivity|].
  destruct (loop_total conv fr init) as [st' [out Hl]].
  { rewrite Hs. apply valid_index_6. cbn [gCurrentPatternNumber]. lia. }
  exists st', out. split; [exact Hl|].
  destruct (loop_Some _ _ _ _ _ Hl) as [f [Hf [_ ->]]].
  rewrite Hr in Hf. injection Hf as <-. cbn [shown_leds call].
  assert (Hlen : length (leds init) = NUM_LEDS) by apply length_replicate.
  rewrite Hs, !multi_leds, red_leds by exact Hlen.
  split; [reflexivity|].
  intros Heq. apply (f_equal (fun l => l !! 0%nat)) in Heq. discriminate Heq.
Qed.

Lemma first_frame_renders_multi_witness :
  gCycle init = 0 /\
  select no_jumper (setup init) = mkState 1 1 0 (leds init) /\
  rendered (mkFrame no_jumper false false) (setup init) = Some Ptr.multi /\
  gPatterns !! 1%nat = Some Ptr.multi /\
  gPatterns !! 0%nat = Some Ptr.red /\
  exists st' out,
    loop sample_hsv2rgb (mkFrame no_jumper false false) (setup init)
      = Some (st', out) /\
    shown_leds out = leds (multi init) /\
    shown_leds out <> leds (red init).
Proof.
  apply (first_frame_renders_multi sample_hsv2rgb (mkFrame no_jumper false false)).
  intros i _ H. discriminate H.
Defined.

(** C10.  The hue has a single writer.  The selection step (with its
    override branch and its cycle-enable edge), [nextPattern] and every
    renderer, [rainbow] included, leave [gHue] as it was, and
    [functionSelect] has no access to the state; a frame in which the
    20-millisecond timer does not fire ends with the hue it started with. *)
Theorem hue_single_writer (conv : CHSV -> CRGB) (st : State) :
  (forall pins, gHue (select pins st) = gHue st) /\
  gHue (set_pattern 0 (set_cycle 1 st)) = gHue st /\
  (forall k, gHue (set_pattern k (set_cycle 0 st)) = gHue st) /\
  gHue (nextPattern st) = gHue st /\
  gHue (advance_tick st) = gHue st /\
  (forall f, gHue (call conv f st) = gHue st) /\
  (0 <= gCurrentPatternNumber st < 6 ->
   forall pins ad, exists st' out,
     loop conv (mkFrame pins false ad) st = Some (st', out) /\
     gHue st' = gHue st).
Proof.
  split; [intros pins; apply select_hue|].
  split; [reflexivity|]. split; [reflexivity|].
  split; [apply nextPattern_hue|]. split; [apply nextPattern_hue|].
  split; [intros f; apply call_hue|].
  intros Hv pins ad. apply valid_index_6 in Hv.
  destruct (loop_total conv (mkFrame pins false ad) st (select_valid _ _ Hv))
    as [st' [out Hl]].
  exists st', out. split; [exact Hl|]. apply loop_hue in Hl. exact Hl.
Qed.

Lemma hue_single_writer_witness :
  exists st' out,
    loop sample_hsv2rgb (mkFrame no_jumper false true)
      (mkState 5 1 77 (leds init)) = Some (st', out) /\
    gHue st' = 77.
Proof.
  apply (proj2 (proj2 (proj2 (proj2 (proj2 (proj2
           (hue_single_writer sample_hsv2rgb (mkState 5 1 77 (leds init)))))))) ).
  cbn [gCurrentPatternNumber]. lia.
Defined.

(** * Further properties of the sketch *)

(** ** Auxiliary facts *)

Lemma State_eq st1 st2 :
  gCurrentPatternNumber st1 = gCurrentPatternNumber st2 ->
  gCycle st1 = gCycle st2 -> gHue st1 = gHue st2 -> leds st1 = leds st2 ->
  st1 = st2.
Proof. destruct st1, st2. cbn. intros -> -> -> ->. reflexivity. Qed.

Lemma firings_cons due fr frs :
  firings due (fr :: frs) =
  if due fr then S (firings due frs) else firings due frs.
Proof. unfold firings. cbn [List.filter]. destruct (due fr); reflexivity. Qed.

Lemma iter_advance_tick st k :
  gCycle st <> 0 -> 0 <= gCurrentPatternNumber st < 6 ->
  gCurrentPatternNumber (Nat.iter k advance_tick st)
    = (gCurrentPatternNumber st + Z.of_nat k) mod 6 /\
  gCycle (Nat.iter k advance_tick st) = gCycle st /\
  gHue (Nat.iter k advance_tick st) = gHue st /\
  leds (Nat.iter k advance_tick st) = leds st.
Proof.
  intros Hc Hv. induction k as [|k [IHp [IHc [IHh IHl]]]].
  - cbn [Nat.iter]. rewrite Z.add_0_r, Z.mod_small by lia. auto.
  - rewrite Nat.iter_succ. unfold advance_tick at 1 3 5 7.
    rewrite nextPattern_cycle, nextPattern_hue, nextPattern_leds.
    rewrite nextPattern_enabled by (rewrite IHc; exact Hc).
    rewrite IHp, Zplus_mod_idemp_l.
    repeat split; try assumption. f_equal. lia.
Qed.

Lemma fsel_scan_ext pins1 pins2 n : forall i,
  (forall j, i <= j < i + Z.of_nat n ->
     pins1 (BASE_FSEL_PIN + j) = pins2 (BASE_FSEL_PIN + j)) ->
  fsel_scan pins1 i n = fsel_scan pins2 i n.
Proof.
  induction n as [|n IH]; intros i Hagree; cbn [fsel_scan]; [reflexivity|].
  rewrite !digitalRead_low, (Hagree i) by lia.
  destruct (pins2 (BASE_FSEL_PIN + i)); cbn [negb]; [|reflexivity].
  apply IH. intros j Hj. apply Hagree. lia.
Qed.

Lemma functionSelect_ext pins1 pins2 :
  (forall i, 0 <= i < 6 ->
     pins1 (BASE_FSEL_PIN + i) = pins2 (BASE_FSEL_PIN + i)) ->
  functionSelect pins1 = functionSelect pins2.
Proof.
  intros Hagree. apply fsel_scan_ext. intros j Hj. apply Hagree.
  change (Z.of_nat (Z.to_nat (ARRAY_SIZE gPatterns))) with 6 in Hj. lia.
Qed.

(** A no-override frame entered with the cycle on. *)
Lemma loop_steady conv fr st :
  functionSelect (pins_of fr) = -1 -> gCycle st <> 0 -> valid_index st ->
  exists st' out, loop conv fr st = Some (st', out) /\
    gCycle st' = gCycle st /\
    gCurrentPatternNumber st' =
      if advance_due fr then (gCurrentPatternNumber st + 1) mod 6
      else gCurrentPatternNumber st.
Proof.
  intros Hf Hc Hv. pose proof (select_steady _ st Hf Hc) as Hs.
  destruct (loop_total conv fr st) as [st' [out Hl]].
  { rewrite Hs. exact Hv. }
  exists st', out. split; [exact Hl|].
  destruct (loop_Some _ _ _ _ _ Hl) as [f [_ [-> _]]].
  set (st2 := call conv f _).
  assert (Hc2 : gCycle st2 = gCycle st)
    by (unfold st2; rewrite call_cycle, Hs; reflexivity).
  assert (Hp2 : gCurrentPatternNumber st2 = gCurrentPatternNumber st)
    by (unfold st2; rewrite call_pattern, Hs; reflexivity).
  clearbody st2.
  destruct (hue_due fr), (advance_due fr); unfold advance_tick;
    rewrite ?nextPattern_cycle, ?nextPattern_enabled
      by (cbn [hue_tick set_hue gCycle]; congruence);
    cbn [hue_tick set_hue gCycle gCurrentPatternNumber];
    rewrite ?Hp2; auto.
Qed.

Lemma run_steady conv frs : forall st,
  no_override frs -> gCycle st <> 0 -> valid_index st ->
  exists st', run conv frs st = Some st' /\
    gCycle st' = gCycle st /\
    gCurrentPatternNumber st' =
      (gCurrentPatternNumber st + Z.of_nat (firings advance_due frs)) mod 6.
Proof.
  induction frs as [|fr frs IH]; intros st Hno Hc Hv.
  - exists st. cbn [run]. apply (proj1 (valid_index_6 st)) in Hv.
    change (firings advance_due []) with 0%nat.
    rewrite Z.add_0_r, Z.mod_small by lia. auto.
  - apply Forall_cons in Hno as [Hf Hno].
    destruct (loop_steady conv fr st Hf Hc Hv) as [st1 [out [Hl [Hc1 Hp1]]]].
    assert (Hv1 : valid_index st1) by (eapply loop_valid; eassumption).
    destruct (IH st1 Hno ltac:(congruence) Hv1) as [st' [Hr [Hc' Hp']]].
    exists st'. cbn [run]. rewrite Hl. split; [exact Hr|].
    split; [congruence|]. rewrite Hp', Hp1, firings_cons.
    destruct (advance_due fr).
    + rewrite Zplus_mod_idemp_l. f_equal. lia.
    + reflexivity.
Qed.

Lemma run_hue conv frs : forall st,
  valid_index st -> 0 <= gHue st < 256 ->
  exists st', run conv frs st = Some st' /\
    gHue st' = (gHue st + Z.of_nat (firings hue_due frs)) mod 256.
Proof.
  induction frs as [|fr frs IH]; intros st Hv Hh.
  - exists st. cbn [run]. change (firings hue_due []) with 0%nat.
    rewrite Z.add_0_r, Z.mod_small by lia. auto.
  - destruct (loop_total conv fr st (select_valid _ _ Hv)) as [st1 [out Hl]].
    assert (Hv1 : valid_index st1) by (eapply loop_valid; eassumption).
    pose proof (loop_hue _ _ _ _ _ Hl) as Hh1.
    assert (Hr1 : 0 <= gHue st1 < 256).
    { rewrite Hh1. destruct (hue_due fr); [|exact Hh].
      unfold uint8. apply Z.mod_pos_bound. lia. }
    destruct (IH st1 Hv1 Hr1) as [st' [Hr Hh']].
    exists st'. cbn [run]. rewrite Hl. split; [exact Hr|].
    rewrite Hh', Hh1, firings_cons. destruct (hue_due fr).
    + unfold uint8. rewrite Zplus_mod_idemp_l. f_equal. lia.
    + reflexivity.
Qed.


(** ** The auto-cycle sequence *)

(** X1.  With auto-cycle enabled, [k] firings of the 60-second timer move a
    valid index [a] to [(a + k) mod 6]: six firings bring the state back to
    where it was, the six states in between have pairwise different
    indices, and every registry index is reached. *)
Theorem auto_cycle_visits_every_pattern (st : State) :
  gCycle st <> 0 -> 0 <= gCurrentPatternNumber st < 6 ->
  (forall k, gCurrentPatternNumber (Nat.iter k advance_tick st)
             = (gCurrentPatternNumber st + Z.of_nat k) mod 6) /\
  Nat.iter 6 advance_tick st = st /\
  (forall j k, (j < 6)%nat -> (k < 6)%nat ->
     gCurrentPatternNumber (Nat.iter j advance_tick st)
       = gCurrentPatternNumber (Nat.iter k advance_tick st) -> j = k) /\
  (forall p, 0 <= p < 6 -> exists k, (k < 6)%nat /\
     gCurrentPatternNumber (Nat.iter k advance_tick st) = p).
Proof.
  intros Hc Hv.
  assert (Hk : forall k, gCurrentPatternNumber (Nat.iter k advance_tick st)
                 = (gCurrentPatternNumber st + Z.of_nat k) mod 6)
    by (intros k; apply iter_advance_tick; assumption).
  split; [exact Hk|]. split; [|split].
  - destruct (iter_advance_tick st 6 Hc Hv) as [Hp [Hc6 [Hh Hl]]].
    apply State_eq; try assumption.
    rewrite Hp. change (Z.of_nat 6) with (1 * 6).
    rewrite Z.mod_add, Z.mod_small; lia.
  - intros j k Hj Hk6. rewrite !Hk. intros Heq.
    set (a := gCurrentPatternNumber st) in *.
    pose proof (Z.mod_eq (a + Z.of_nat j) 6 ltac:(lia)) as Ej.
    pose proof (Z.mod_eq (a + Z.of_nat k) 6 ltac:(lia)) as Ek.
    pose proof (Z.mod_pos_bound (a + Z.of_nat j) 6 ltac:(lia)).
    pose proof (Z.mod_pos_bound (a + Z.of_nat k) 6 ltac:(lia)).
    lia.
  - intros p Hp.
    set (a := gCurrentPatternNumber st) in *.
    pose proof (Z.mod_pos_bound (p - a) 6 ltac:(lia)) as Hb.
    exists (Z.to_nat ((p - a) mod 6)). split; [lia|].
    rewrite Hk. fold a. rewrite Z2Nat.id by lia.
    rewrite Zplus_mod_idemp_r.
    replace (a + (p - a)) with p by lia. apply Z.mod_small. exact Hp.
Qed.

Lemma auto_cycle_visits_every_pattern_witness :
  Nat.iter 6 advance_tick (mkState 4 1 0 (leds init)) = mkState 4 1 0 (leds init).
Proof.
  apply (auto_cycle_visits_every_pattern (mkState 4 1 0 (leds init))).
  - discriminate.
  - cbn [gCurrentPatternNumber]. lia.
Defined.

(** X2.  After every frame the auto-cycle flag is 1 exactly when no function
    pin was grounded in that frame, and 0 otherwise, whatever it was
    before. *)
Theorem cycle_flag_tracks_override
    (conv : CHSV -> CRGB) (fr : Frame) (st : State) :
  0 <= gCurrentPatternNumber st < 6 ->
  gCycle st = 0 \/ gCycle st = 1 ->
  exists st' out, loop conv fr st = Some (st', out) /\
    gCycle st' = if functionSelect (pins_of fr) =? -1 then 1 else 0.
Proof.
  intros Hv Hc. apply valid_index_6 in Hv.
  destruct (functionSelect_range (pins_of fr)) as [Hf|Hf].
  - rewrite Hf. cbn [Z.eqb Pos.eqb]. destruct Hc as [Hc|Hc].
    + destruct (loop_edge conv fr st Hf Hc) as [st' [out [Hl [Hc' _]]]].
      eauto.
    + destruct (loop_steady conv fr st Hf ltac:(lia) Hv)
        as [st' [out [Hl [Hc' _]]]].
      exists st', out. split; [exact Hl | congruence].
  - destruct (loop_override conv fr st _ eq_refl Hf) as [st' [out [Hl [Hc' _]]]].
    exists st', out. split; [exact Hl|].
    destruct (functionSelect (pins_of fr) =? -1) eqn:E;
      [apply Z.eqb_eq in E; lia | exact Hc'].
Qed.

Lemma cycle_flag_tracks_override_witness :
  exists st' out,
    loop sample_hsv2rgb (mkFrame jumpers_3_5 true true)
      (mkState 4 1 9 (leds init)) = Some (st', out) /\
    gCycle st' = 0.
Proof.
  apply (cycle_flag_tracks_override sample_hsv2rgb
           (mkFrame jumpers_3_5 true true) (mkState 4 1 9 (leds init))).
  - cbn [gCurrentPatternNumber]. lia.
  - right. reflexivity.
Defined.

(** X3.  While no function pin is grounded and auto-cycle is on, a run of
    frames changes the pattern index only through the 60-second timer: the
    run ends with the index advanced, modulo 6, by the number of frames in
    which that timer fired, and with the flag unchanged. *)
Theorem steady_auto_cycle_run
    (conv : CHSV -> CRGB) (frs : list Frame) (st : State) :
  no_override frs -> gCycle st <> 0 -> 0 <= gCurrentPatternNumber st < 6 ->
  exists st', run conv frs st = Some st' /\
    gCycle st' = gCycle st /\
    gCurrentPatternNumber st' =
      (gCurrentPatternNumber st + Z.of_nat (firings advance_due frs)) mod 6.
Proof.
  intros Hno Hc Hv. apply valid_index_6 in Hv.
  apply run_steady; assumption.
Qed.

Lemma steady_auto_cycle_run_witness :
  exists st',
    run sample_hsv2rgb
      [mkFrame no_jumper true true; mkFrame no_jumper false false;
       mkFrame no_jumper false true]
      (mkState 5 1 0 (leds init)) = Some st' /\
    gCycle st' = 1 /\
    gCurrentPatternNumber st' = 1.
Proof.
  apply (steady_auto_cycle_run sample_hsv2rgb
           [mkFrame no_jumper true true; mkFrame no_jumper false false;
            mkFrame no_jumper false true]
           (mkState 5 1 0 (leds init))).
  - repeat constructor.
  - discriminate.
  - cbn [gCurrentPatternNumber]. lia.
Defined.

(** X4.  A run of frames without any function pin grounded, entered with
    auto-cycle off (as after power-up, or after a jumper is removed), ends
    with auto-cycle on and the index at 1 plus the number of firings of the
    60-second timer, modulo 6. *)
Theorem cold_start_run
    (conv : CHSV -> CRGB) (fr : Frame) (frs : list Frame) (st : State) :
  gCycle st = 0 -> no_override (fr :: frs) ->
  exists st', run conv (fr :: frs) st = Some st' /\
    gCycle st' = 1 /\
    gCurrentPatternNumber st' =
      (1 + Z.of_nat (firings advance_due (fr :: frs))) mod 6.
Proof.
  intros Hc Hno. apply Forall_cons in Hno as [Hf Hno].
  destruct (loop_edge conv fr st Hf Hc) as [st1 [out [Hl [Hc1 Hp1]]]].
  assert (Hv1 : valid_index st1).
  { apply valid_index_6. rewrite Hp1. destruct (advance_due fr); lia. }
  destruct (run_steady conv frs st1 Hno ltac:(lia) Hv1) as [st' [Hr [Hc' Hp']]].
  exists st'. cbn [run]. rewrite Hl. split; [exact Hr|].
  split; [congruence|]. rewrite Hp', Hp1, firings_cons.
  destruct (advance_due fr); f_equal; lia.
Qed.

Lemma cold_start_run_witness :
  exists st',
    run sample_hsv2rgb
      [mkFrame no_jumper false false; mkFrame no_jumper true true] init
      = Some st' /\
    gCycle st' = 1 /\
    gCurrentPatternNumber st' = 2.
Proof.
  apply (cold_start_run sample_hsv2rgb (mkFrame no_jumper false false)
           [mkFrame no_jumper true true] init).
  - reflexivity.
  - repeat constructor.
Defined.

(** X5.  Over any run of frames, whatever the pins and the other timer do,
    the hue ends at its start value plus the number of frames in which the
    20-millisecond timer fired, modulo 256. *)
Theorem hue_counts_firings
    (conv : CHSV -> CRGB) (frs : list Frame) (st : State) :
  0 <= gCurrentPatternNumber st < 6 -> 0 <= gHue st < 256 ->
  exists st', run conv frs st = Some st' /\
    gHue st' = (gHue st + Z.of_nat (firings hue_due frs)) mod 256.
Proof.
  intros Hv Hh. apply valid_index_6 in Hv. apply run_hue; assumption.
Qed.

Lemma hue_counts_firings_witness :
  exists st',
    run sample_hsv2rgb
      [mkFrame jumpers_3_5 true false; mkFrame no_jumper true true]
      (mkState 0 0 255 (leds init)) = Some st' /\
    gHue st' = 1.
Proof.
  apply (hue_counts_firings sample_hsv2rgb
           [mkFrame jumpers_3_5 true false; mkFrame no_jumper true true]
           (mkState 0 0 255 (leds init))).
  - cbn [gCurrentPatternNumber]. lia.
  - cbn [gHue]. lia.
Defined.

(** X6.  A jumper wins whatever happened before: if the last frame of a run
    sees function pin offset [k] as the lowest grounded one, the run ends
    with auto-cycle off and pattern index [k], for every earlier history of
    pins and timers. *)
Theorem last_frame_override_wins
    (conv : CHSV -> CRGB) (frs : list Frame) (fr : Frame) (st : State) (k : Z) :
  0 <= gCurrentPatternNumber st < 6 ->
  functionSelect (pins_of fr) = k -> 0 <= k < 6 ->
  exists st', run conv (frs ++ [fr]) st = Some st' /\
    gCycle st' = 0 /\ gCurrentPatternNumber st' = k.
Proof.
  intros Hv Hf Hk. apply valid_index_6 in Hv.
  destruct (run_valid conv frs st Hv) as [st1 [Hr1 _]].
  destruct (loop_override conv fr st1 k Hf Hk) as [st' [out [Hl H]]].
  exists st'. rewrite run_app, Hr1. cbn [run]. rewrite Hl.
  split; [reflexivity | exact H].
Qed.

Lemma last_frame_override_wins_witness :
  exists st',
    run sample_hsv2rgb
      ([mkFrame no_jumper true true; mkFrame no_jumper false true]
       ++ [mkFrame jumpers_3_5 true true]) init = Some st' /\
    gCycle st' = 0 /\ gCurrentPatternNumber st' = 1.
Proof.
  apply (last_frame_override_wins sample_hsv2rgb
           [mkFrame no_jumper true true; mkFrame no_jumper false true]
           (mkFrame jumpers_3_5 true true) init 1).
  - cbn [gCurrentPatternNumber init]. lia.
  - reflexivity.
  - lia.
Defined.

(** ** What a frame reads and shows *)

(** X7.  Pattern selection reads the six function pins and nothing else:
    two frames that agree on pins [BASE_FSEL_PIN .. BASE_FSEL_PIN + 5] and on
    the timers, but differ on any other pin (the brightness pins included),
    select the same pattern, end in the same state and show the same
    pixels. *)
Theorem selection_reads_function_pins_only
    (conv : CHSV -> CRGB) (fr1 fr2 : Frame) (st : State) :
  (forall i, 0 <= i < 6 ->
     pins_of fr1 (BASE_FSEL_PIN + i) = pins_of fr2 (BASE_FSEL_PIN + i)) ->
  hue_due fr1 = hue_due fr2 -> advance_due fr1 = advance_due fr2 ->
  functionSelect (pins_of fr1) = functionSelect (pins_of fr2) /\
  select (pins_of fr1) st = select (pins_of fr2) st /\
  rendered fr1 st = rendered fr2 st /\
  option_map fst (loop conv fr1 st) = option_map fst (loop conv fr2 st) /\
  option_map (fun r => shown_leds (snd r)) (loop conv fr1 st)
    = option_map (fun r => shown_leds (snd r)) (loop conv fr2 st).
Proof.
  intros Hagree Hh Ha.
  pose proof (functionSelect_ext _ _ Hagree) as Hf.
  assert (Hs : select (pins_of fr1) st = select (pins_of fr2) st)
    by (unfold select; rewrite Hf; reflexivity).
  split; [exact Hf|]. split; [exact Hs|].
  unfold rendered, loop. rewrite Hs, Hh, Ha.
  split; [reflexivity|].
  destruct (gPatterns !! Z.to_nat (gCurrentPatternNumber (select (pins_of fr2) st)));
    split; reflexivity.
Qed.

Lemma selection_reads_function_pins_only_witness :
  functionSelect (fun p => negb ((p =? 3) || (p =? 10)))
    = functionSelect (fun p => negb ((p =? 3) || (p =? 11))) /\
  select (fun p => negb ((p =? 3) || (p =? 10))) init
    = select (fun p => negb ((p =? 3) || (p =? 11))) init.
Proof.
  pose proof (selection_reads_function_pins_only sample_hsv2rgb
    (mkFrame (fun p => negb ((p =? 3) || (p =? 10))) true false)
    (mkFrame (fun p => negb ((p =? 3) || (p =? 11))) true false) init) as H.
  cbn [pins_of hue_due advance_due] in H.
  destruct H as [Hf [Hs _]]; [|reflexivity|reflexivity|split; assumption].
  intros i Hi. unfold BASE_FSEL_PIN.
  destruct (Z.eq_dec i 1) as [->|]; [reflexivity|].
  replace (2 + i =? 3) with false by (symmetry; apply Z.eqb_neq; lia).
  replace (2 + i =? 10) with false by (symmetry; apply Z.eqb_neq; lia).
  replace (2 + i =? 11) with false by (symmetry; apply Z.eqb_neq; lia).
  reflexivity.
Defined.

(** X8.  A frame started with a valid index and a 50-element buffer shows
    the strip the pattern selected in that very frame, rendered at the hue
    the frame started with (a hue tick of the same frame shows one frame
    later); the buffer it leaves is the one it showed, still of 50 elements,
    and nothing of the earlier buffer is in it. *)
Theorem frame_shows_selected_pattern
    (conv : CHSV -> CRGB) (fr : Frame) (st : State) :
  0 <= gCurrentPatternNumber st < 6 -> length (leds st) = NUM_LEDS ->
  exists f st' out,
    gPatterns !! Z.to_nat (gCurrentPatternNumber (select (pins_of fr) st))
      = Some f /\
    loop conv fr st = Some (st', out) /\
    shown_leds out = pixel_of conv f (gHue st) <$> seq 0 NUM_LEDS /\
    leds st' = shown_leds out /\
    length (leds st') = NUM_LEDS.
Proof.
  intros Hv Hlen. apply valid_index_6 in Hv.
  destruct (loop_total conv fr st (select_valid _ _ Hv)) as [st' [out Hl]].
  destruct (loop_Some _ _ _ _ _ Hl) as [f [Hf [Hst Hout]]].
  exists f, st', out. split; [exact Hf|]. split; [exact Hl|].
  assert (Hshown : shown_leds out = pixel_of conv f (gHue st) <$> seq 0 NUM_LEDS).
  { rewrite Hout. cbn [shown_leds].
    rewrite call_leds by (rewrite select_leds; exact Hlen).
    rewrite select_hue. reflexivity. }
  assert (Hleds : leds st' = shown_leds out).
  { rewrite Hst, Hout. cbn [shown_leds].
    destruct (hue_due fr), (advance_due fr); unfold advance_tick;
      rewrite ?nextPattern_leds; reflexivity. }
  split; [exact Hshown|]. split; [exact Hleds|].
  rewrite Hleds, Hshown, length_fmap, length_seq. reflexivity.
Qed.

Lemma frame_shows_selected_pattern_witness :
  exists f st' out,
    gPatterns !! Z.to_nat (gCurrentPatternNumber (select jumpers_3_5 init))
      = Some f /\
    loop sample_hsv2rgb (mkFrame jumpers_3_5 true true) init = Some (st', out) /\
    shown_leds out = pixel_of sample_hsv2rgb f (gHue init) <$> seq 0 NUM_LEDS /\
    leds st' = shown_leds out /\
    length (leds st') = NUM_LEDS.
Proof.
  apply (frame_shows_selected_pattern sample_hsv2rgb
           (mkFrame jumpers_3_5 true true) init).
  - cbn [gCurrentPatternNumber init]. lia.
  - apply length_replicate.
Defined.

(** ** The pins programmed by setup *)



(** ** The two patterns that vary along the strip *)

(** X10.  [rainbow] gives pixel [k] the colour of hue [(gHue + 7 k) mod 256]
    at saturation 240 and value 255: the hue climbs by 7 per pixel and wraps
    around within the strip. *)
Theorem rainbow_hue_progression
    (conv : CHSV -> CRGB) (st : State) (k : nat) :
  0 <= gHue st < 256 -> length (leds st) = NUM_LEDS -> (k < NUM_LEDS)%nat ->
  leds (rainbow conv st) !! k
    = Some (conv (mkCHSV ((gHue st + 7 * Z.of_nat k) mod 256) 240 255)).
Proof.
  intros Hh Hlen Hk.
  unfold rainbow, fill_rainbow. rewrite fill_rainbow_from_lookup.
  case_decide; [|lia]. cbn [hue sat val].
  rewrite Nat.sub_0_r, hue_after_closed by exact Hh.
  replace (7 * Z.of_nat k) with (Z.of_nat k * 7) by lia. reflexivity.
Qed.

Lemma rainbow_hue_progression_witness :
  leds (rainbow sample_hsv2rgb (mkState 5 1 200 (leds init))) !! 10%nat
    = Some (sample_hsv2rgb (mkCHSV ((200 + 7 * Z.of_nat 10) mod 256) 240 255)).
Proof.
  apply (rainbow_hue_progression sample_hsv2rgb (mkState 5 1 200 (leds init)) 10).
  - cbn [gHue]. lia.
  - apply length_replicate.
  - unfold NUM_LEDS. lia.
Defined.

(** X11.  [multi] repeats with period five along the strip: pixel [k + 5]
    has the colour of pixel [k]. *)
Theorem multi_repeats_every_five (st : State) (k : nat) :
  length (leds st) = NUM_LEDS -> (k + 5 < NUM_LEDS)%nat ->
  leds (multi st) !! (k + 5)%nat = leds (multi st) !! k /\
  leds (multi st) !! k = Some (multi_pixel k).
Proof.
  intros Hlen Hk.
  pose proof (call_lookup sample_hsv2rgb Ptr.multi st k ltac:(lia) Hlen) as H0.
  pose proof (call_lookup sample_hsv2rgb Ptr.multi st (k + 5) Hk Hlen) as H5.
  cbn [call pixel_of] in H0, H5. rewrite H0, H5. split; [|reflexivity].
  unfold multi_pixel.
  replace (k + 5)%nat with (k + 1 * 5)%nat by lia.
  rewrite Nat.Div0.mod_add. reflexivity.
Qed.

Lemma multi_repeats_every_five_witness :
  leds (multi init) !! (7 + 5)%nat = leds (multi init) !! 7%nat /\
  leds (multi init) !! 7%nat = Some (multi_pixel 7).
Proof.
  apply (multi_repeats_every_five init 7).
  - apply length_replicate.
  - unfold NUM_LEDS. lia.
Defined.

(** ** What holds in every reachable state *)

Lemma loop_cycle_bit conv fr st st' out :
  gCycle st = 0 \/ gCycle st = 1 ->
  loop conv fr st = Some (st', out) ->
  gCycle st' = 0 \/ gCycle st' = 1.
Proof.
  intros Hc Hl. destruct (loop_Some _ _ _ _ _ Hl) as [f [_ [-> _]]].
  assert (Hs : gCycle (select (pins_of fr) st) = 0 \/
               gCycle (select (pins_of fr) st) = 1).
  { destruct (functionSelect_range (pins_of fr)) as [Hf|Hf].
    - destruct Hc as [Hc|Hc].
      + rewrite select_edge by assumption. right. reflexivity.
      + rewrite select_steady by (try assumption; lia). right. exact Hc.
    - left. apply (select_override _ st _ eq_refl Hf). }
  destruct (hue_due fr), (advance_due fr); unfold advance_tick;
    rewrite ?nextPattern_cycle; cbn [hue_tick set_hue gCycle];
    rewrite call_cycle; exact Hs.
Qed.

Lemma loop_length conv fr st st' out :
  loop conv fr st = Some (st', out) ->
  length (leds st') = length (leds st).
Proof.
  intros Hl. destruct (loop_Some _ _ _ _ _ Hl) as [f [_ [-> _]]].
  destruct (hue_due fr), (advance_due fr); unfold advance_tick;
    rewrite ?nextPattern_leds; cbn [hue_tick set_hue leds];
    rewrite call_length, select_leds; reflexivity.
Qed.

Lemma run_wellformed conv frs : forall st,
  valid_index st -> (gCycle st = 0 \/ gCycle st = 1) -> 0 <= gHue st < 256 ->
  exists st', run conv frs st = Some st' /\
    valid_index st' /\ (gCycle st' = 0 \/ gCycle st' = 1) /\
    0 <= gHue st' < 256 /\ length (leds st') = length (leds st).
Proof.
  induction frs as [|fr frs IH]; intros st Hv Hc Hh; cbn [run].
  - exists st. auto.
  - destruct (loop_total conv fr st (select_valid _ _ Hv)) as [st1 [out Hl]].
    rewrite Hl.
    assert (Hh1 : 0 <= gHue st1 < 256).
    { rewrite (loop_hue _ _ _ _ _ Hl). destruct (hue_due fr); [|exact Hh].
      unfold uint8. apply Z.mod_pos_bound. lia. }
    destruct (IH st1 (loop_valid _ _ _ _ _ Hv Hl)
                (loop_cycle_bit _ _ _ _ _ Hc Hl) Hh1)
      as [st' [Hr [Hv' [Hc' [Hh' Hlen']]]]].
    exists st'. split; [exact Hr|]. split; [exact Hv'|].
    split; [exact Hc'|]. split; [exact Hh'|].
    rewrite Hlen'. eapply loop_length. exact Hl.
Qed.

(** X12.  From power-up on, whatever the jumpers and timers do, every frame
    returns and every state reached keeps the auto-cycle flag at 0 or 1, the
    hue within [0 .. 255], the pattern index below 6 and the pixel buffer at
    50 elements: no stored value ever leaves the range of its C type. *)
Theorem reachable_states_wellformed (conv : CHSV -> CRGB) (frs : list Frame) :
  exists st, run conv frs (setup init) = Some st /\
    0 <= gCurrentPatternNumber st < 6 /\
    (gCycle st = 0 \/ gCycle st = 1) /\
    0 <= gHue st < 256 /\
    length (leds st) = NUM_LEDS.
Proof.
  unfold setup.
  destruct (run_wellformed conv frs init) as [st [Hr [Hv [Hc [Hh Hlen]]]]].
  - apply valid_index_6. cbn [gCurrentPatternNumber init]. lia.
  - left. reflexivity.
  - cbn [gHue init]. lia.
  - exists st. split; [exact Hr|].
    split; [apply valid_index_6; exact Hv|]. split; [exact Hc|].
    split; [exact Hh|]. rewrite Hlen. apply length_replicate.
Qed.
